(** * Smart AI-Based ESP32 Controller: the configuration header

    A shallow embedding of [firmware/ESP32_MQTT_GPIO_Controller/config.h].
    Every [#define] of the header becomes a definition of the same name,
    a string literal becomes a [string], an [int] literal a [Z], the
    [const int] array a [list Z] built the way C++ builds an array from a
    declared size and a brace initialiser.  Adjacent string literals, which
    the translator pastes together, are joined with [+:+].

    The same header is then read a second way, as the guarded list of
    directives it is, with macro replacement at the point of use; the two
    readings are shown to agree. *)

From Stdlib Require Import ZArith Ascii.
From stdpp Require Import base strings list gmap.

Local Open Scope Z_scope.

(** ** The values a configuration name can stand for *)

(** [DHT_SENSOR_TYPE] names one of the two sensor variants of the DHT
    driver. *)
Inductive dht_type : Set := DHT11 | DHT22.

#[global] Instance dht_type_eq_dec : EqDecision dht_type.
Proof. solve_decision. Defined.

Inductive value : Type :=
| VText (s : string)
| VInt (z : Z)
| VBool (b : bool)
| VSensor (t : dht_type)
| VArray (a : list Z).

#[global] Instance value_eq_dec : EqDecision value.
Proof. solve_decision. Defined.

(** ** C++ facts the header relies on *)

(** The range of [int] on the ESP32 (32 bits, two's complement). *)
Definition INT_MIN : Z := - 2 ^ 31.
Definition INT_MAX : Z := 2 ^ 31 - 1.

Definition fits_int (z : Z) : bool := (INT_MIN <=? z) && (z <=? INT_MAX).

(** [const int a[n] = { x0, ..., xk };]  The declaration is ill-formed when
    [n] is not positive or when the braces hold more than [n] values; with
    fewer, the remaining elements are zero. *)
Definition array_init (n : Z) (init : list Z) : option (list Z) :=
  if (0 <? n) && (Z.of_nat (length init) <=? n)
  then Some (init ++ replicate (Z.to_nat n - length init)%nat 0)
  else None.

(** ** WiFi configuration *)

Definition WIFI_SSID : string := "<your_wifi_ssid>".
Definition WIFI_PASSWORD : string := "<your_wifi_password>".
Definition WIFI_TIMEOUT : Z := 20000.

(** ** MQTT configuration *)

Definition MQTT_BROKER : string := "<your_mqtt_broker>".
Definition MQTT_PORT : Z := 8883.
Definition MQTT_CLIENT_ID : string := "ESP32_GPIO_Controller".
Definition MQTT_USERNAME : string := "<your_mqtt_username>".
Definition MQTT_PASSWORD : string := "<your_mqtt_password>".
Definition MQTT_RECONNECT_DELAY : Z := 5000.

(** ** MQTT topics

    The three topic macros do not repeat the prefix: each one expands to
    the prefix macro followed by a literal.  The section keeps the prefix
    abstract, as the macro bodies do. *)

Section Topics.
Variable prefix : string.

Definition topic_control : string := prefix +:+ "/control".
Definition topic_status : string := prefix +:+ "/status".
Definition topic_telemetry : string := prefix +:+ "/telemetry".
End Topics.

Definition MQTT_TOPIC_PREFIX : string := "esp32/gpio".
Definition MQTT_TOPIC_CONTROL : string := topic_control MQTT_TOPIC_PREFIX.
Definition MQTT_TOPIC_STATUS : string := topic_status MQTT_TOPIC_PREFIX.
Definition MQTT_TOPIC_TELEMETRY : string := topic_telemetry MQTT_TOPIC_PREFIX.

(** ** GPIO pins *)

Definition NUM_CONTROL_PINS : Z := 4.

(** The values between the braces of [CONTROL_PINS]. *)
Definition CONTROL_PINS_initializer : list Z := [5; 15; 17; 18].

Definition CONTROL_PINS_declaration : option (list Z) :=
  array_init NUM_CONTROL_PINS CONTROL_PINS_initializer.

Definition CONTROL_PINS : list Z := default [] CONTROL_PINS_declaration.

Definition DHT_SENSOR_PIN : Z := 4.
Definition DHT_SENSOR_TYPE : dht_type := DHT22.

(** ** Debug settings *)

Definition DEBUG_ENABLED : bool := true.
Definition SERIAL_BAUD_RATE : Z := 115200.

(** ** The header as a table of named values *)

(** How a name of the header is bound.  A [#define] whose body is a literal
    puts the literal itself at every use, so the name denotes no object
    that could be stored to; an object is either [const] or not. *)
Inductive storage : Set :=
| MacroLiteral
| ConstObject
| PlainObject.

#[global] Instance storage_eq_dec : EqDecision storage.
Proof. solve_decision. Defined.

Record declaration : Type := mk_declaration {
  d_name : string;
  d_storage : storage;
  d_value : value
}.

(** The bindings of [config.h], in the order of the file. *)
Definition config_h : list declaration := [
  mk_declaration "WIFI_SSID" MacroLiteral (VText WIFI_SSID);
  mk_declaration "WIFI_PASSWORD" MacroLiteral (VText WIFI_PASSWORD);
  mk_declaration "WIFI_TIMEOUT" MacroLiteral (VInt WIFI_TIMEOUT);
  mk_declaration "MQTT_BROKER" MacroLiteral (VText MQTT_BROKER);
  mk_declaration "MQTT_PORT" MacroLiteral (VInt MQTT_PORT);
  mk_declaration "MQTT_CLIENT_ID" MacroLiteral (VText MQTT_CLIENT_ID);
  mk_declaration "MQTT_USERNAME" MacroLiteral (VText MQTT_USERNAME);
  mk_declaration "MQTT_PASSWORD" MacroLiteral (VText MQTT_PASSWORD);
  mk_declaration "MQTT_RECONNECT_DELAY" MacroLiteral (VInt MQTT_RECONNECT_DELAY);
  mk_declaration "MQTT_TOPIC_PREFIX" MacroLiteral (VText MQTT_TOPIC_PREFIX);
  mk_declaration "MQTT_TOPIC_CONTROL" MacroLiteral (VText MQTT_TOPIC_CONTROL);
  mk_declaration "MQTT_TOPIC_STATUS" MacroLiteral (VText MQTT_TOPIC_STATUS);
  mk_declaration "MQTT_TOPIC_TELEMETRY" MacroLiteral (VText MQTT_TOPIC_TELEMETRY);
  mk_declaration "NUM_CONTROL_PINS" MacroLiteral (VInt NUM_CONTROL_PINS);
  mk_declaration "CONTROL_PINS" ConstObject (VArray CONTROL_PINS);
  mk_declaration "DHT_SENSOR_PIN" MacroLiteral (VInt DHT_SENSOR_PIN);
  mk_declaration "DHT_SENSOR_TYPE" MacroLiteral (VSensor DHT_SENSOR_TYPE);
  mk_declaration "DEBUG_ENABLED" MacroLiteral (VBool DEBUG_ENABLED);
  mk_declaration "SERIAL_BAUD_RATE" MacroLiteral (VInt SERIAL_BAUD_RATE)
].

(** The values every name has once static initialisation is done. *)
Definition static_init (h : list declaration) : gmap string value :=
  list_to_map ((λ d, (d_name d, d_value d)) <$> h).

Definition storage_of (h : list declaration) (n : string) : option storage :=
  (list_to_map ((λ d, (d_name d, d_storage d)) <$> h) : gmap string storage) !! n.

(** No name of the header is bound to an object that can be stored to. *)
Definition read_only (h : list declaration) : bool :=
  forallb (λ d, bool_decide (d_storage d ≠ PlainObject)) h.

(** Modelled from the spec: the firmware that includes the header is not
    among the sources.  The spec's public contract gives it read-only
    access to each named value and no operation beyond value retrieval,
    which is [Retrieve].  [Assign] is the store a C++ program could
    attempt on a name: the translator rejects it on a macro literal and on
    a [const] object, and it goes through on an object that is not
    [const]. *)
Inductive operation : Type :=
| Retrieve (n : string)
| Assign (n : string) (v : value).

Inductive outcome : Type :=
| Got (v : value)
| Stored
| Rejected
| Unknown.

#[global] Instance outcome_eq_dec : EqDecision outcome.
Proof. solve_decision. Defined.

Definition step (h : list declaration) (op : operation) (σ : gmap string value)
  : outcome * gmap string value :=
  match op with
  | Retrieve n =>
      match σ !! n with
      | Some v => (Got v, σ)
      | None => (Unknown, σ)
      end
  | Assign n v =>
      match storage_of h n with
      | Some PlainObject => (Stored, <[n := v]> σ)
      | Some _ => (Rejected, σ)
      | None => (Unknown, σ)
      end
  end.

Fixpoint run (h : list declaration) (ops : list operation) (σ : gmap string value)
  : list outcome * gmap string value :=
  match ops with
  | [] => ([], σ)
  | op :: ops' =>
      let '(o, σ1) := step h op σ in
      let '(os, σ2) := run h ops' σ1 in
      (o :: os, σ2)
  end.

(** ** Placeholder credentials *)

Definition first_char (s : string) : option ascii :=
  match s with
  | EmptyString => None
  | String c _ => Some c
  end.

Fixpoint last_char (s : string) : option ascii :=
  match s with
  | EmptyString => None
  | String c s' =>
      match s' with
      | EmptyString => Some c
      | String _ _ => last_char s'
      end
  end.

(** A value that still reads [<...>], as the header ships it. *)
Definition is_placeholder (s : string) : bool :=
  bool_decide (first_char s = Some "<"%char) &&
  bool_decide (last_char s = Some ">"%char).

(** The three literals pasted after the prefix. *)
Definition topic_suffixes : list string := ["/control"; "/status"; "/telemetry"].

(** Which of the three suffixes completes a prefix to a given topic. *)
Definition suffixes_of (prefix t : string) : list string :=
  filter (λ suf, t = prefix +:+ suf) topic_suffixes.

(** A variant of the header in which the array is not [const]; it is what
    tells the two qualifiers apart in the model. *)
Definition unqualified_h : list declaration :=
  [mk_declaration "CONTROL_PINS" PlainObject (VArray CONTROL_PINS)].

(** ** The header as the translator reads it

    The file is a guarded list of directives.  A [#define] binds a name to
    the tokens of its body, replacing an earlier binding; the one object
    definition declares a [const int] array whose size is written with a
    macro.  Names are replaced by their bodies where they are used, not
    where they are defined. *)

Inductive token : Type :=
| TIdent (x : string)
| TString (s : string)
| TInt (z : Z).

#[global] Instance token_eq_dec : EqDecision token.
Proof. solve_decision. Defined.

(** What a translation unit has seen so far: its macros and the arrays it
    has defined. *)
Record translation_unit : Type := mk_unit {
  tu_macros : gmap string (list token);
  tu_objects : gmap string (list Z)
}.

Definition empty_unit : translation_unit := mk_unit ∅ ∅.

(** Macro replacement of one token.  A name whose replacement is under
    way (it is in [hide]) is left alone inside its own body, so a macro
    that mentions itself does not loop; [again] replaces the macros of a
    body. *)
Definition expand_token (again : list string → list token → option (list token))
    (m : gmap string (list token)) (hide : list string) (t : token)
  : option (list token) :=
  match t with
  | TIdent x =>
      if decide (x ∈ hide) then Some [t]
      else match m !! x with
           | Some body => again (x :: hide) body
           | None => Some [t]
           end
  | TString _ | TInt _ => Some [t]
  end.

(** Macro replacement of a token list; [fuel] bounds the nesting. *)
Fixpoint expand (fuel : nat) (m : gmap string (list token)) (hide : list string)
    (ts : list token) : option (list token) :=
  match fuel with
  | O => None
  | S fuel' => @concat token <$> mapM (expand_token (expand fuel' m) m hide) ts
  end.

(** Nesting is no deeper than the number of macros. *)
Definition expand_all (m : gmap string (list token)) (ts : list token)
  : option (list token) :=
  expand (S (size m)) m [] ts.

(** Adjacent string literals become one literal. *)
Fixpoint paste (ts : list token) : list token :=
  match ts with
  | [] => []
  | TString a :: rest =>
      match paste rest with
      | TString b :: rest' => TString (a +:+ b) :: rest'
      | rest' => TString a :: rest'
      end
  | t :: rest => t :: paste rest
  end.

(** What a use of the name [x] stands for in the unit [tu]. *)
Definition evaluate (tu : translation_unit) (x : string) : option (list token) :=
  paste <$> expand_all (tu_macros tu) [TIdent x].

(** [#define x body].  A body that differs from an earlier one of the same
    name is diagnosed by the translator the firmware is built with, and
    takes its place. *)
Definition define (x : string) (body : list token) (tu : translation_unit)
  : translation_unit :=
  mk_unit (<[x := body]> (tu_macros tu)) (tu_objects tu).

(** [const int x[size] = { init };]  The declared name and the size are
    subject to macro replacement like any other token; the definition is
    ill-formed when the name does not come out as an identifier, when the
    size does not come out as one integer, when the array initialisation
    is, or when the unit already defines the object. *)
Definition define_array (x : string) (size : list token) (init : list Z)
    (tu : translation_unit) : option translation_unit :=
  match expand_all (tu_macros tu) [TIdent x] with
  | Some [TIdent y] =>
      match expand_all (tu_macros tu) size with
      | Some [TInt n] =>
          match tu_objects tu !! y with
          | Some _ => None
          | None =>
              match array_init n init with
              | Some a => Some (mk_unit (tu_macros tu) (<[y := a]> (tu_objects tu)))
              | None => None
              end
          end
      | _ => None
      end
  | _ => None
  end.

Inductive directive : Type :=
| Define (x : string) (body : list token)
| DefineArray (x : string) (size : list token) (init : list Z).

Definition exec (d : directive) (tu : translation_unit) : option translation_unit :=
  match d with
  | Define x body => Some (define x body tu)
  | DefineArray x size init => define_array x size init tu
  end.

Fixpoint exec_all (ds : list directive) (tu : translation_unit)
  : option translation_unit :=
  match ds with
  | [] => Some tu
  | d :: ds' =>
      match exec d tu with
      | Some tu' => exec_all ds' tu'
      | None => None
      end
  end.

(** The lines of [config.h] between [#define CONFIG_H] and [#endif]. *)
Definition config_h_lines : list directive := [
  Define "WIFI_SSID" [TString "<your_wifi_ssid>"];
  Define "WIFI_PASSWORD" [TString "<your_wifi_password>"];
  Define "WIFI_TIMEOUT" [TInt 20000];
  Define "MQTT_BROKER" [TString "<your_mqtt_broker>"];
  Define "MQTT_PORT" [TInt 8883];
  Define "MQTT_CLIENT_ID" [TString "ESP32_GPIO_Controller"];
  Define "MQTT_USERNAME" [TString "<your_mqtt_username>"];
  Define "MQTT_PASSWORD" [TString "<your_mqtt_password>"];
  Define "MQTT_RECONNECT_DELAY" [TInt 5000];
  Define "MQTT_TOPIC_PREFIX" [TString "esp32/gpio"];
  Define "MQTT_TOPIC_CONTROL" [TIdent "MQTT_TOPIC_PREFIX"; TString "/control"];
  Define "MQTT_TOPIC_STATUS" [TIdent "MQTT_TOPIC_PREFIX"; TString "/status"];
  Define "MQTT_TOPIC_TELEMETRY" [TIdent "MQTT_TOPIC_PREFIX"; TString "/telemetry"];
  Define "NUM_CONTROL_PINS" [TInt 4];
  DefineArray "CONTROL_PINS" [TIdent "NUM_CONTROL_PINS"] [5; 15; 17; 18];
  Define "DHT_SENSOR_PIN" [TInt 4];
  Define "DHT_SENSOR_TYPE" [TIdent "DHT22"];
  Define "DEBUG_ENABLED" [TIdent "true"];
  Define "SERIAL_BAUD_RATE" [TInt 115200]
].

(** The header without its guard. *)
Definition config_h_body (tu : translation_unit) : option translation_unit :=
  exec_all config_h_lines tu.

(** [#include "config.h"]: under [#ifndef CONFIG_H] the whole file is
    skipped once [CONFIG_H] is a macro; otherwise [CONFIG_H] is defined,
    with an empty body, and the lines are read. *)
Definition include_config_h (tu : translation_unit) : option translation_unit :=
  match tu_macros tu !! "CONFIG_H" with
  | Some _ => Some tu
  | None => config_h_body (define "CONFIG_H" [] tu)
  end.

(** The macros a list of directives leaves behind; a later [#define] of a
    name wins over an earlier one. *)
Fixpoint defined_by (ds : list directive) : gmap string (list token) :=
  match ds with
  | [] => ∅
  | Define x body :: ds' => defined_by ds' ∪ {[x := body]}
  | DefineArray _ _ _ :: ds' => defined_by ds'
  end.

(** The tokens a use of a name stands for when its value is a piece of
    text or an integer. *)
Definition literal_of (v : value) : option (list token) :=
  match v with
  | VText s => Some [TString s]
  | VInt z => Some [TInt z]
  | VBool _ | VSensor _ | VArray _ => None
  end.

Definition is_literal (t : token) : bool :=
  match t with
  | TIdent _ => false
  | TString _ | TInt _ => true
  end.

Definition is_define (d : directive) : bool :=
  match d with
  | Define _ _ => true
  | DefineArray _ _ _ => false
  end.

(** A unit that includes the header and nothing before it. *)
Definition included_unit : translation_unit :=
  default empty_unit (include_config_h empty_unit).

(** * Properties *)

(** ** Literal pasting *)

Section TopicFacts.
Variable prefix : string.

Lemma paste_inj (s1 s2 : string) : prefix +:+ s1 = prefix +:+ s2 ↔ s1 = s2.
Proof.
  split; [ | by intros ->].
  induction prefix as [ | c p IH]; [done | ].
  intros H. apply IH. by injection H.
Qed.

Lemma paste_prefix (s : string) : String.prefix prefix (prefix +:+ s) = true.
Proof.
  induction prefix as [ | c p IH]; simpl.
  - by destruct s.
  - destruct (ascii_dec c c); [exact IH | done].
Qed.

Lemma topics_pairwise_distinct :
  topic_control prefix ≠ topic_status prefix ∧
  topic_control prefix ≠ topic_telemetry prefix ∧
  topic_status prefix ≠ topic_telemetry prefix.
Proof.
  unfold topic_control, topic_status, topic_telemetry.
  repeat split; intros H; apply (proj1 (paste_inj _ _)) in H; discriminate H.
Qed.

Lemma suffixes_of_paste (suf : string) :
  suffixes_of prefix (prefix +:+ suf) = filter (λ s, suf = s) topic_suffixes.
Proof.
  unfold suffixes_of. apply list_filter_iff. intros s. apply paste_inj.
Qed.
End TopicFacts.

(** ** Array initialisation *)

Lemma array_init_length (n : Z) (init a : list Z) :
  array_init n init = Some a → length a = Z.to_nat n.
Proof.
  unfold array_init. case_match eqn:Hc; [ | done].
  intros [= <-]. apply andb_prop in Hc as [Hn Hl].
  rewrite length_app, length_replicate. lia.
Qed.

Lemma array_init_full (n : Z) (init : list Z) :
  0 < n → Z.of_nat (length init) = n → array_init n init = Some init.
Proof.
  intros Hn Hl. unfold array_init.
  replace (Z.to_nat n - length init)%nat with 0%nat by lia.
  rewrite app_nil_r.
  assert ((0 <? n) = true) as -> by lia.
  assert ((Z.of_nat (length init) <=? n) = true) as -> by lia.
  done.
Qed.

(** ** Programs over a header without plain objects *)

Lemma storage_of_plain (h : list declaration) (n : string) :
  storage_of h n = Some PlainObject → read_only h = false.
Proof.
  unfold storage_of, read_only. intros H%elem_of_list_to_map_2.
  apply list_elem_of_fmap in H as (d & [= -> Hs] & Hd).
  apply not_true_is_false. intros Hall.
  rewrite forallb_forall in Hall.
  specialize (Hall d). rewrite <- list_elem_of_In in Hall.
  specialize (Hall Hd). apply bool_decide_eq_true in Hall. congruence.
Qed.

Lemma step_read_only (h : list declaration) (op : operation) (σ : gmap string value) :
  read_only h = true → (step h op σ).2 = σ.
Proof.
  intros Hro. destruct op as [n | n v]; simpl.
  - by destruct (σ !! n).
  - destruct (storage_of h n) as [[ | | ] | ] eqn:Hs; try done.
    apply storage_of_plain in Hs. congruence.
Qed.

Lemma run_read_only (h : list declaration) (ops : list operation) (σ : gmap string value) :
  read_only h = true →
  run h ops σ = ((λ op, (step h op σ).1) <$> ops, σ).
Proof.
  intros Hro. induction ops as [ | op ops IH]; [done | ].
  simpl. pose proof (step_read_only h op σ Hro) as Hst.
  destruct (step h op σ) as [o σ1]. simpl in Hst. subst σ1.
  by rewrite IH.
Qed.

Lemma assign_never_stores (h : list declaration) (n : string) (v : value)
    (σ : gmap string value) :
  read_only h = true → (step h (Assign n v) σ).1 ≠ Stored.
Proof.
  intros Hro. simpl.
  destruct (storage_of h n) as [[ | | ] | ] eqn:Hs; try done.
  apply storage_of_plain in Hs. congruence.
Qed.

(** With no name bound twice, reading a name of the header right after
    static initialisation gives the value the header binds it to. *)
Lemma retrieve_bound (h : list declaration) (d : declaration) :
  NoDup (d_name <$> h) → d ∈ h →
  step h (Retrieve (d_name d)) (static_init h) = (Got (d_value d), static_init h).
Proof.
  intros Hnd Hd. simpl.
  assert (static_init h !! d_name d = Some (d_value d)) as ->; [ | done].
  unfold static_init. apply elem_of_list_to_map_1.
  - by rewrite <- list_fmap_compose.
  - apply list_elem_of_fmap. by exists d.
Qed.

(** On the header whose array lacks [const] the same store goes through
    and a later read sees the new value. *)
Lemma unqualified_array_is_mutable :
  run unqualified_h
      [Assign "CONTROL_PINS" (VArray [0; 0; 0; 0]); Retrieve "CONTROL_PINS"]
      (static_init unqualified_h)
  = ([Stored; Got (VArray [0; 0; 0; 0])],
     {["CONTROL_PINS" := VArray [0; 0; 0; 0]]}).
Proof.
  apply pair_equal_spec. split; [by vm_compute | ].
  apply map_eq. intros k. by vm_compute.
Qed.

(** ** Placeholders *)

Lemma last_char_snoc (s : string) (c : ascii) :
  last_char (s +:+ String c EmptyString) = Some c.
Proof.
  induction s as [ | a s IH]; [done | ].
  change (String a s +:+ String c "") with (String a (s +:+ String c "")).
  simpl. rewrite IH. by destruct s.
Qed.

Lemma last_char_inv (s : string) (c : ascii) :
  last_char s = Some c → ∃ s', s = s' +:+ String c EmptyString.
Proof.
  induction s as [ | a s IH]; [done | ].
  destruct s as [ | b s]; simpl.
  - intros [= ->]. by exists EmptyString.
  - intros H. destruct (IH H) as [s' Hs']. exists (String a s'). by rewrite Hs'.
Qed.

Lemma is_placeholder_spec (s : string) :
  is_placeholder s = true ↔ ∃ body, s = "<" +:+ body +:+ ">".
Proof.
  unfold is_placeholder. rewrite andb_true_iff, !bool_decide_eq_true. split.
  - intros [Hf Hl]. destruct s as [ | a s]; [done | ].
    injection Hf as ->.
    destruct s as [ | b s]; [done | ].
    apply (last_char_inv (String b s)) in Hl as [body Hb].
    exists body. by rewrite Hb.
  - intros [body ->]. split; [done | ].
    apply (last_char_snoc (String "<" body)).
Qed.

(** * The shipped configuration *)

(** C1: each of the three topic constants is the topic prefix followed by
    exactly one of the suffixes ["/control"], ["/status"], ["/telemetry"],
    a different one for each; with the prefix ["esp32/gpio"] they read
    ["esp32/gpio/control"], ["esp32/gpio/status"] and
    ["esp32/gpio/telemetry"], so all three start with the one prefix. *)
Theorem topics_are_prefix_plus_suffix :
  MQTT_TOPIC_PREFIX = "esp32/gpio" ∧
  (MQTT_TOPIC_CONTROL = MQTT_TOPIC_PREFIX +:+ "/control" ∧
   MQTT_TOPIC_STATUS = MQTT_TOPIC_PREFIX +:+ "/status" ∧
   MQTT_TOPIC_TELEMETRY = MQTT_TOPIC_PREFIX +:+ "/telemetry") ∧
  (suffixes_of MQTT_TOPIC_PREFIX MQTT_TOPIC_CONTROL = ["/control"] ∧
   suffixes_of MQTT_TOPIC_PREFIX MQTT_TOPIC_STATUS = ["/status"] ∧
   suffixes_of MQTT_TOPIC_PREFIX MQTT_TOPIC_TELEMETRY = ["/telemetry"]) ∧
  (MQTT_TOPIC_CONTROL = "esp32/gpio/control" ∧
   MQTT_TOPIC_STATUS = "esp32/gpio/status" ∧
   MQTT_TOPIC_TELEMETRY = "esp32/gpio/telemetry") ∧
  (String.prefix MQTT_TOPIC_PREFIX MQTT_TOPIC_CONTROL = true ∧
   String.prefix MQTT_TOPIC_PREFIX MQTT_TOPIC_STATUS = true ∧
   String.prefix MQTT_TOPIC_PREFIX MQTT_TOPIC_TELEMETRY = true).
Proof.
  split; [reflexivity | ].
  split; [by repeat split | ].
  split.
  { unfold MQTT_TOPIC_CONTROL, MQTT_TOPIC_STATUS, MQTT_TOPIC_TELEMETRY,
      topic_control, topic_status, topic_telemetry.
    rewrite !suffixes_of_paste. by repeat split. }
  split; [by repeat split | ].
  repeat split; apply paste_prefix.
Qed.

(** C2: the declared pin count [NUM_CONTROL_PINS] equals the number of
    elements of the [CONTROL_PINS] array, and both are 4; the braces hold
    exactly that many values, so the array is the brace list itself. *)
Theorem num_control_pins_is_length :
  NUM_CONTROL_PINS = Z.of_nat (length CONTROL_PINS) ∧
  NUM_CONTROL_PINS = 4 ∧
  length CONTROL_PINS = 4%nat ∧
  CONTROL_PINS_declaration = Some CONTROL_PINS ∧
  CONTROL_PINS = CONTROL_PINS_initializer.
Proof.
  assert (CONTROL_PINS_declaration = Some CONTROL_PINS_initializer) as Hd
    by (by apply array_init_full).
  assert (CONTROL_PINS = CONTROL_PINS_initializer) as Hp
    by (unfold CONTROL_PINS; by rewrite Hd).
  pose proof (array_init_length _ _ _ Hd) as Hl.
  rewrite Hp. split; [rewrite Hl; by rewrite Z2Nat.id | ].
  by repeat split.
Qed.

(** C3: the sensor pin [DHT_SENSOR_PIN] is not an element of
    [CONTROL_PINS]. *)
Theorem sensor_pin_not_a_control_pin :
  DHT_SENSOR_PIN ∉ CONTROL_PINS.
Proof.
  change CONTROL_PINS with [5; 15; 17; 18]. unfold DHT_SENSOR_PIN.
  rewrite !not_elem_of_cons. repeat split; try lia. apply not_elem_of_nil.
Qed.

(** C4: the control-pin sequence is exactly [5, 15, 17, 18], its count is
    4, every element is non-negative and no element occurs twice. *)
Theorem control_pins_exact :
  CONTROL_PINS = [5; 15; 17; 18] ∧
  NUM_CONTROL_PINS = 4 ∧
  length CONTROL_PINS = 4%nat ∧
  Forall (λ p, 0 ≤ p) CONTROL_PINS ∧
  NoDup CONTROL_PINS.
Proof.
  change CONTROL_PINS with [5; 15; 17; 18].
  repeat split.
  - repeat constructor; lia.
  - repeat (apply NoDup_cons; split;
            [rewrite ?not_elem_of_cons; repeat split; try lia; apply not_elem_of_nil | ]).
    apply NoDup_nil_2.
Qed.

(** C5: the broker port lies between 1 and 65535 inclusive; the configured
    value is 8883. *)
Theorem mqtt_port_in_range :
  1 ≤ MQTT_PORT ≤ 65535 ∧ MQTT_PORT = 8883.
Proof. unfold MQTT_PORT. lia. Qed.

(** C6: [WIFI_TIMEOUT] and [MQTT_RECONNECT_DELAY] are each strictly
    positive integers (each literal is within the range of [int]). *)
Theorem timeouts_strictly_positive :
  (0 < WIFI_TIMEOUT ∧ fits_int WIFI_TIMEOUT = true) ∧
  (0 < MQTT_RECONNECT_DELAY ∧ fits_int MQTT_RECONNECT_DELAY = true).
Proof.
  unfold WIFI_TIMEOUT, MQTT_RECONNECT_DELAY, fits_int, INT_MIN, INT_MAX.
  repeat split; lia.
Qed.

(** C7: every named configuration value is a constant for the life of the
    process.  Whatever sequence of operations the program performs from
    static initialisation on, the table of values is afterwards the one of
    static initialisation, every operation gives what it would have given
    at static initialisation, no store is ever performed, and reading any
    name of the header afterwards returns the value the header binds it
    to. *)
Theorem configuration_is_constant (ops : list operation) :
  (run config_h ops (static_init config_h)).2 = static_init config_h ∧
  (run config_h ops (static_init config_h)).1
    = ((λ op, (step config_h op (static_init config_h)).1) <$> ops) ∧
  (Stored ∉ (run config_h ops (static_init config_h)).1) ∧
  Forall (λ d, step config_h (Retrieve (d_name d))
                 (run config_h ops (static_init config_h)).2
               = (Got (d_value d), static_init config_h))
         config_h.
Proof.
  assert (read_only config_h = true) as Hro by reflexivity.
  rewrite (run_read_only config_h ops _ Hro). cbn [fst snd].
  repeat split.
  - intros (op & Hop & _)%list_elem_of_fmap.
    destruct op as [n | n v].
    + cbn [step] in Hop. by destruct (static_init config_h !! n).
    + by apply (assign_never_stores config_h n v (static_init config_h) Hro).
  - apply Forall_forall. intros d Hd. apply retrieve_bound; [ | done].
    apply (bool_decide_unpack _). by vm_compute.
Qed.

(** C9: as shipped, the WiFi SSID, the WiFi password, the broker host, the
    MQTT user name and the MQTT password are each a placeholder that
    begins with '<' and ends with '>'. *)
Theorem credentials_are_placeholders :
  is_placeholder WIFI_SSID = true ∧
  is_placeholder WIFI_PASSWORD = true ∧
  is_placeholder MQTT_BROKER = true ∧
  is_placeholder MQTT_USERNAME = true ∧
  is_placeholder MQTT_PASSWORD = true.
Proof.
  split_and!; apply is_placeholder_spec.
  - by exists "your_wifi_ssid".
  - by exists "your_wifi_password".
  - by exists "your_mqtt_broker".
  - by exists "your_mqtt_username".
  - by exists "your_mqtt_password".
Qed.

(** C10: the control topic, the status topic and the telemetry topic are
    three different strings; the topic subscribed to is neither of the two
    published to. *)
Theorem topics_are_pairwise_distinct :
  MQTT_TOPIC_CONTROL ≠ MQTT_TOPIC_STATUS ∧
  MQTT_TOPIC_CONTROL ≠ MQTT_TOPIC_TELEMETRY ∧
  MQTT_TOPIC_STATUS ≠ MQTT_TOPIC_TELEMETRY.
Proof. exact (topics_pairwise_distinct MQTT_TOPIC_PREFIX). Qed.

(** * Beyond the shipped values *)

(** ** Topics under any prefix *)

Lemma length_paste (s t : string) :
  String.length (s +:+ t) = (String.length s + String.length t)%nat.
Proof.
  induction s as [ | c s IH]; [done | ].
  change (String c s +:+ t) with (String c (s +:+ t)). simpl. by rewrite IH.
Qed.

Lemma paste_cancel_r (s1 s2 t : string) : s1 +:+ t = s2 +:+ t → s1 = s2.
Proof.
  revert s2. induction s1 as [ | c s1 IH]; intros [ | d s2] H; [done | | | ].
  - apply (f_equal String.length) in H.
    change (String d s2 +:+ t) with (String d (s2 +:+ t)) in H.
    change ("" +:+ t) with t in H. simpl in H. rewrite length_paste in H. lia.
  - apply (f_equal String.length) in H.
    change (String c s1 +:+ t) with (String c (s1 +:+ t)) in H.
    change ("" +:+ t) with t in H. simpl in H. rewrite length_paste in H. lia.
  - change (String c s1 +:+ t) with (String c (s1 +:+ t)) in H.
    change (String d s2 +:+ t) with (String d (s2 +:+ t)) in H.
    injection H as -> H. f_equal. by apply IH.
Qed.

Lemma last_char_paste (s t : string) :
  t ≠ EmptyString → last_char (s +:+ t) = last_char t.
Proof.
  intros Ht. induction s as [ | c s IH]; [done | ].
  change (String c s +:+ t) with (String c (s +:+ t)).
  simpl. rewrite IH. destruct (s +:+ t) eqn:Hst; [ | done].
  apply (f_equal String.length) in Hst. rewrite length_paste in Hst.
  destruct t; [done | ]. simpl in Hst. lia.
Qed.

(** X1: whatever prefixes two devices are built with, a control topic is
    never a status or a telemetry topic, and a status topic is never a
    telemetry topic: the role of a topic can be read off the topic. *)
Theorem topic_roles_never_collide (p1 p2 : string) :
  topic_control p1 ≠ topic_status p2 ∧
  topic_control p1 ≠ topic_telemetry p2 ∧
  topic_status p1 ≠ topic_telemetry p2.
Proof.
  unfold topic_control, topic_status, topic_telemetry.
  split_and!; intros H; apply (f_equal last_char) in H;
    rewrite !last_char_paste in H by done; discriminate H.
Qed.

(** X2: a topic determines the prefix it was built from: two builds have
    the same control topic exactly when they have the same prefix, and
    likewise for the status and the telemetry topic. *)
Theorem topic_determines_prefix (p1 p2 : string) :
  (topic_control p1 = topic_control p2 ↔ p1 = p2) ∧
  (topic_status p1 = topic_status p2 ↔ p1 = p2) ∧
  (topic_telemetry p1 = topic_telemetry p2 ↔ p1 = p2).
Proof.
  unfold topic_control, topic_status, topic_telemetry.
  split_and!; (split; [apply paste_cancel_r | by intros ->]).
Qed.

(** ** The array for any count and any brace list *)



(** X4: when the declared count is larger than the number of values
    between the braces, the accepted array ends in pin 0, which the braces
    need not mention; when it is larger by two or more, the array holds
    pin 0 twice, so its pins are no longer distinct. *)
Theorem short_brace_list_adds_pin_zero (n : Z) (init a : list Z) :
  array_init n init = Some a →
  Z.of_nat (length init) < n →
  last a = Some 0 ∧ 0 ∈ a ∧ (Z.of_nat (length init) + 2 ≤ n → ¬ NoDup a).
Proof.
  intros H Hshort. unfold array_init in H. case_match eqn:Hc; [ | done].
  injection H as <-.
  destruct (Z.to_nat n - length init)%nat as [ | k] eqn:Hk; [lia | ].
  split_and!.
  - rewrite replicate_S_end, app_assoc. apply last_snoc.
  - apply elem_of_app. right. simpl. apply list_elem_of_here.
  - intros Htwo. destruct k as [ | k]; [lia | ].
    intros [_ [_ Hnd]]%NoDup_app. simpl in Hnd.
    apply NoDup_cons in Hnd as [Hin _]. apply Hin, list_elem_of_here.
Qed.

Lemma short_brace_list_adds_pin_zero_witness :
  last [5; 15; 17; 18; 0; 0] = Some 0 ∧ 0 ∈ [5; 15; 17; 18; 0; 0] ∧
  (Z.of_nat (length [5; 15; 17; 18]) + 2 ≤ 6 → ¬ NoDup [5; 15; 17; 18; 0; 0]).
Proof.
  apply (short_brace_list_adds_pin_zero 6 [5; 15; 17; 18]); [reflexivity | simpl; lia].
Defined.

(** ** Macro replacement *)

Lemma expand_fuel_S (m : gmap string (list token)) (fuel : nat) :
  ∀ hide ts r, expand fuel m hide ts = Some r → expand (S fuel) m hide ts = Some r.
Proof.
  induction fuel as [ | f IH]; intros hide ts r H; [done | ].
  change (@concat token <$> mapM (expand_token (expand f m) m hide) ts = Some r) in H.
  change (@concat token <$> mapM (expand_token (expand (S f) m) m hide) ts = Some r).
  apply fmap_Some in H as (rs & Hrs & ->). apply fmap_Some. exists rs. split; [ | done].
  apply mapM_Some. apply mapM_Some in Hrs.
  eapply Forall2_impl; [exact Hrs | ]. intros t y Ht.
  destruct t as [x | s | z]; try done. simpl in *.
  case_decide; [done | ]. destruct (m !! x); [ | done]. by apply IH.
Qed.

Lemma expand_fuel_le (m : gmap string (list token)) (f f' : nat) hide ts r :
  (f ≤ f')%nat → expand f m hide ts = Some r → expand f' m hide ts = Some r.
Proof.
  induction 1 as [ | f' _ IH]; [done | ]. intros H. by apply expand_fuel_S, IH.
Qed.

(** Hidden names are macros and are hidden once, so there are at most as
    many of them as there are macros. *)
Lemma hidden_bounded (m : gmap string (list token)) (hide : list string) :
  NoDup hide → (∀ x, x ∈ hide → is_Some (m !! x)) → (length hide ≤ size m)%nat.
Proof.
  intros Hnd Hsub.
  rewrite <- (size_dom (D := gset string)).
  rewrite <- (size_list_to_set (C := gset string) hide Hnd).
  apply subseteq_size. intros x Hx. apply elem_of_dom, Hsub.
  by apply elem_of_list_to_set in Hx.
Qed.

Lemma expand_total (m : gmap string (list token)) (fuel : nat) :
  ∀ hide ts,
    NoDup hide → (∀ x, x ∈ hide → is_Some (m !! x)) →
    (size m < fuel + length hide)%nat →
    is_Some (expand fuel m hide ts).
Proof.
  induction fuel as [ | f IH]; intros hide ts Hnd Hsub Hfuel.
  { pose proof (hidden_bounded m hide Hnd Hsub). simpl in Hfuel. lia. }
  change (is_Some (@concat token <$> mapM (expand_token (expand f m) m hide) ts)).
  apply fmap_is_Some, mapM_is_Some, Forall_forall. intros t _.
  destruct t as [x | s | z]; simpl; [ | done | done].
  case_decide as Hx; [done | ]. destruct (m !! x) as [body | ] eqn:Hm; [ | done].
  apply IH.
  - by apply NoDup_cons.
  - intros y [-> | Hy]%elem_of_cons; [by rewrite Hm | by apply Hsub].
  - simpl. lia.
Qed.

Lemma expand_all_total (m : gmap string (list token)) (ts : list token) :
  is_Some (expand_all m ts).
Proof.
  apply expand_total; [apply NoDup_nil_2 | by intros x ?%elem_of_nil | simpl; lia].
Qed.

(** Whatever some amount of fuel gives is what [expand_all] gives. *)
Lemma expand_all_eq (m : gmap string (list token)) (fuel : nat) ts r :
  expand fuel m [] ts = Some r → expand_all m ts = Some r.
Proof.
  intros H. destruct (expand_all_total m ts) as [r' Hr']. rewrite Hr'.
  unfold expand_all in Hr'.
  pose proof (expand_fuel_le m _ (fuel `max` S (size m)) _ _ _ (Nat.le_max_l _ _) H) as H1.
  pose proof (expand_fuel_le m _ (fuel `max` S (size m)) _ _ _ (Nat.le_max_r _ _) Hr') as H2.
  congruence.
Qed.

Lemma expand_cons (m : gmap string (list token)) (fuel : nat) hide t ts :
  expand (S fuel) m hide (t :: ts) =
    match expand_token (expand fuel m) m hide t, expand (S fuel) m hide ts with
    | Some r1, Some r2 => Some (r1 ++ r2)
    | _, _ => None
    end.
Proof.
  change (expand (S fuel) m hide (t :: ts))
    with (@concat token <$> mapM (expand_token (expand fuel m) m hide) (t :: ts)).
  change (expand (S fuel) m hide ts)
    with (@concat token <$> mapM (expand_token (expand fuel m) m hide) ts).
  simpl. destruct (expand_token (expand fuel m) m hide t) as [r1 | ]; [ | done].
  simpl. by destruct (mapM (expand_token (expand fuel m) m hide) ts).
Qed.

Lemma expand_single (m : gmap string (list token)) (fuel : nat) hide t :
  expand (S fuel) m hide [t] = expand_token (expand fuel m) m hide t.
Proof.
  rewrite expand_cons.
  destruct (expand_token (expand fuel m) m hide t) as [r1 | ]; [ | done].
  simpl. by rewrite app_nil_r.
Qed.

Lemma expand_token_ident again (m : gmap string (list token)) hide (x : string) :
  x ∉ hide →
  expand_token again m hide (TIdent x) =
    match m !! x with
    | Some body => again (x :: hide) body
    | None => Some [TIdent x]
    end.
Proof. intros Hx. unfold expand_token. by rewrite decide_False. Qed.

Lemma expand_all_undefined (m : gmap string (list token)) (x : string) :
  m !! x = None → expand_all m [TIdent x] = Some [TIdent x].
Proof.
  intros Hx. apply (expand_all_eq m 1).
  rewrite expand_single, expand_token_ident by apply not_elem_of_nil.
  by rewrite Hx.
Qed.

Lemma expand_literals (m : gmap string (list token)) (fuel : nat) hide ts :
  forallb is_literal ts = true → expand (S fuel) m hide ts = Some ts.
Proof.
  induction ts as [ | t ts IH]; [done | ].
  intros [Ht Hts]%andb_prop. rewrite expand_cons, (IH Hts). by destruct t.
Qed.

Lemma expand_all_literal (m : gmap string (list token)) (x : string) body :
  m !! x = Some body → forallb is_literal body = true →
  expand_all m [TIdent x] = Some body.
Proof.
  intros Hx Hl. apply (expand_all_eq m 2).
  rewrite expand_single, expand_token_ident by apply not_elem_of_nil.
  rewrite Hx. by apply expand_literals.
Qed.

(** A macro whose body is another macro followed by a string literal, the
    form of the three topic macros. *)
Lemma evaluate_pasted (tu : translation_unit) (x y p suf : string) :
  x ≠ y →
  tu_macros tu !! x = Some [TIdent y; TString suf] →
  tu_macros tu !! y = Some [TString p] →
  evaluate tu x = Some [TString (p +:+ suf)].
Proof.
  intros Hxy Hx Hy. unfold evaluate.
  assert (expand_all (tu_macros tu) [TIdent x] = Some [TString p; TString suf]) as ->;
    [ | done].
  apply (expand_all_eq _ 3).
  rewrite expand_single, expand_token_ident by apply not_elem_of_nil.
  rewrite Hx, expand_cons, expand_token_ident
    by (rewrite list_elem_of_singleton; congruence).
  rewrite Hy. by rewrite !expand_literals.
Qed.

Lemma evaluate_literal (tu : translation_unit) (x : string) (t : token) :
  tu_macros tu !! x = Some [t] → is_literal t = true → evaluate tu x = Some [t].
Proof.
  intros Hx Hl. unfold evaluate.
  rewrite (expand_all_literal _ x [t] Hx) by (simpl; by rewrite Hl).
  by destruct t.
Qed.

Lemma evaluate_renamed (tu : translation_unit) (x y : string) (t : token) :
  x ≠ y →
  tu_macros tu !! x = Some [TIdent y] →
  tu_macros tu !! y = Some [t] → is_literal t = true →
  evaluate tu x = Some [t].
Proof.
  intros Hxy Hx Hy Hl. unfold evaluate.
  assert (expand_all (tu_macros tu) [TIdent x] = Some [t]) as ->;
    [ | by destruct t].
  apply (expand_all_eq _ 3).
  rewrite expand_single, expand_token_ident by apply not_elem_of_nil.
  rewrite Hx, expand_single, expand_token_ident
    by (rewrite list_elem_of_singleton; congruence).
  rewrite Hy. apply expand_literals. simpl. by rewrite Hl.
Qed.

(** ** Reading directives *)

Lemma exec_all_app (ds1 ds2 : list directive) (tu : translation_unit) :
  exec_all (ds1 ++ ds2) tu =
    match exec_all ds1 tu with
    | Some tu' => exec_all ds2 tu'
    | None => None
    end.
Proof.
  revert tu. induction ds1 as [ | d ds1 IH]; intros tu; [done | ].
  simpl. destruct (exec d tu); [apply IH | done].
Qed.

Lemma define_array_inv (x : string) size init (tu tu' : translation_unit) :
  define_array x size init tu = Some tu' →
  ∃ y a, tu_objects tu !! y = None ∧
         tu' = mk_unit (tu_macros tu) (<[y := a]> (tu_objects tu)).
Proof.
  unfold define_array. intros H.
  repeat case_match; try discriminate H. injection H as <-. eauto.
Qed.

Lemma exec_all_macros (ds : list directive) :
  ∀ tu tu', exec_all ds tu = Some tu' →
            tu_macros tu' = defined_by ds ∪ tu_macros tu.
Proof.
  induction ds as [ | d ds IH]; intros tu tu' H.
  - injection H as <-. simpl. by rewrite (left_id_L ∅ (∪)).
  - simpl in H. destruct (exec d tu) as [tu1 | ] eqn:Hd; [ | done].
    rewrite (IH _ _ H). destruct d as [x body | x size init]; simpl in Hd |- *.
    + injection Hd as <-. simpl.
      by rewrite insert_union_singleton_l, (assoc_L (∪)).
    + apply define_array_inv in Hd as (y & a & _ & ->). done.
Qed.

Lemma exec_all_objects (ds : list directive) :
  ∀ tu tu' y a, exec_all ds tu = Some tu' →
                tu_objects tu !! y = Some a → tu_objects tu' !! y = Some a.
Proof.
  induction ds as [ | d ds IH]; intros tu tu' y a H Hy.
  - by injection H as <-.
  - simpl in H. destruct (exec d tu) as [tu1 | ] eqn:Hd; [ | done].
    apply (IH _ _ _ _ H). destruct d as [x body | x size init]; simpl in Hd.
    + by injection Hd as <-.
    + apply define_array_inv in Hd as (y' & a' & Hnone & ->). simpl.
      rewrite lookup_insert_ne; [done | congruence].
Qed.

Lemma exec_all_defines (ds : list directive) :
  forallb is_define ds = true →
  ∀ tu, exec_all ds tu = Some (mk_unit (defined_by ds ∪ tu_macros tu) (tu_objects tu)).
Proof.
  induction ds as [ | d ds IH]; intros Hd tu.
  - simpl. rewrite (left_id_L ∅ (∪)). by destruct tu.
  - apply andb_prop in Hd as [Hd Hds]. destruct d as [x body | ]; [ | done].
    simpl. rewrite (IH Hds). simpl.
    by rewrite insert_union_singleton_l, (assoc_L (∪)).
Qed.

Lemma defined_by_app (ds1 ds2 : list directive) :
  defined_by (ds1 ++ ds2) = defined_by ds2 ∪ defined_by ds1.
Proof.
  induction ds1 as [ | d ds1 IH]; simpl.
  - by rewrite (right_id_L ∅ (∪)).
  - destruct d; rewrite IH; [by rewrite (assoc_L (∪)) | done].
Qed.

(** ** Reading the lines of the header *)

Lemma header_macro (m : gmap string (list token)) (x : string) body :
  defined_by config_h_lines !! x = Some body →
  (defined_by config_h_lines ∪ m) !! x = Some body.
Proof. apply lookup_union_Some_l. Qed.

Lemma header_not_macro (m : gmap string (list token)) (x : string) :
  defined_by config_h_lines !! x = None →
  (defined_by config_h_lines ∪ m) !! x = m !! x.
Proof. intros H. by apply lookup_union_r. Qed.

(** The unguarded lines, read in a unit in which [CONTROL_PINS] is not a
    macro: rejected when the unit already has the array, and otherwise
    all macros of the header are bound and the array is added. *)
Lemma config_h_body_spec (tu : translation_unit) :
  tu_macros tu !! "CONTROL_PINS" = None →
  config_h_body tu =
    match tu_objects tu !! "CONTROL_PINS" with
    | Some _ => None
    | None =>
        Some (mk_unit (defined_by config_h_lines ∪ tu_macros tu)
                      (<["CONTROL_PINS" := [5; 15; 17; 18]]> (tu_objects tu)))
    end.
Proof.
  intros Hm. unfold config_h_body.
  change config_h_lines
    with (take 14 config_h_lines ++
          [DefineArray "CONTROL_PINS" [TIdent "NUM_CONTROL_PINS"] [5; 15; 17; 18]] ++
          drop 15 config_h_lines) at 1.
  rewrite exec_all_app, exec_all_defines by reflexivity.
  rewrite exec_all_app.
  set (m1 := defined_by (take 14 config_h_lines) ∪ tu_macros tu).
  assert (m1 !! "CONTROL_PINS" = None) as Hname.
  { unfold m1. rewrite lookup_union_r; [done | by vm_compute]. }
  assert (m1 !! "NUM_CONTROL_PINS" = Some [TInt 4]) as Hsize.
  { unfold m1. apply lookup_union_Some_l. by vm_compute. }
  cbn [exec_all exec]. unfold define_array. cbn [tu_macros tu_objects].
  rewrite (expand_all_undefined _ _ Hname).
  rewrite (expand_all_literal _ _ _ Hsize) by reflexivity.
  destruct (tu_objects tu !! "CONTROL_PINS"); [done | ].
  change (array_init 4 [5; 15; 17; 18]) with (Some [5; 15; 17; 18]).
  cbn iota. rewrite exec_all_defines by reflexivity.
  cbn [tu_macros tu_objects]. f_equal. f_equal.
  unfold m1. rewrite (assoc_L (∪)). f_equal.
Qed.

Lemma include_macros (tu tu' : translation_unit) :
  tu_macros tu !! "CONFIG_H" = None →
  include_config_h tu = Some tu' →
  tu_macros tu' = defined_by config_h_lines ∪ <["CONFIG_H" := []]> (tu_macros tu).
Proof.
  intros Hg. unfold include_config_h, config_h_body. rewrite Hg.
  intros H. by apply exec_all_macros in H.
Qed.

(** ** The include guard *)

(** X5: including the header a second time changes nothing: after any
    inclusion that is accepted, another inclusion is accepted and leaves
    the macros and the objects of the unit as they are. *)
Theorem include_config_h_idempotent (tu tu' : translation_unit) :
  include_config_h tu = Some tu' → include_config_h tu' = Some tu'.
Proof.
  destruct (tu_macros tu !! "CONFIG_H") as [body | ] eqn:Hg.
  - unfold include_config_h. rewrite Hg. intros [= <-]. by rewrite Hg.
  - intros H. apply (include_macros _ _ Hg) in H.
    unfold include_config_h. rewrite H.
    rewrite header_not_macro by (by vm_compute).
    by rewrite lookup_insert_eq.
Qed.

Lemma include_config_h_idempotent_witness :
  include_config_h empty_unit = Some included_unit ∧
  include_config_h included_unit = Some included_unit.
Proof.
  assert (include_config_h empty_unit = Some included_unit) as H
    by (vm_compute; reflexivity).
  split; [exact H | exact (include_config_h_idempotent empty_unit included_unit H)].
Defined.

(** X6: the guard is what makes the second inclusion harmless.  Once the
    lines of the header have been read without it, reading them again is
    rejected, because [CONTROL_PINS] would be defined twice. *)
Theorem unguarded_second_inclusion_rejected (tu tu' : translation_unit) :
  tu_macros tu !! "CONTROL_PINS" = None →
  config_h_body tu = Some tu' →
  config_h_body tu' = None.
Proof.
  intros Hm H. rewrite (config_h_body_spec tu Hm) in H.
  destruct (tu_objects tu !! "CONTROL_PINS"); [done | ]. injection H as <-.
  rewrite config_h_body_spec; cbn [tu_macros tu_objects].
  - by rewrite lookup_insert_eq.
  - by rewrite header_not_macro by (by vm_compute).
Qed.

Lemma unguarded_second_inclusion_rejected_witness :
  tu_macros empty_unit !! "CONTROL_PINS" = None ∧
  config_h_body empty_unit = Some (default empty_unit (config_h_body empty_unit)) ∧
  config_h_body (default empty_unit (config_h_body empty_unit)) = None.
Proof.
  assert (config_h_body empty_unit
          = Some (default empty_unit (config_h_body empty_unit))) as H
    by (vm_compute; reflexivity).
  split_and!; [reflexivity | exact H | ].
  exact (unguarded_second_inclusion_rejected empty_unit _ eq_refl H).
Defined.



(** ** What the names stand for after inclusion *)

(** X8: whatever the unit held before (as long as [CONFIG_H] and
    [CONTROL_PINS] were not macros), after an accepted inclusion a use of
    any text or integer name of the header stands for the one literal that
    the constant of the same name is, the topic macros included, and the
    array object holds [CONTROL_PINS]. *)
Theorem included_names_are_the_constants (tu tu' : translation_unit) :
  tu_macros tu !! "CONFIG_H" = None →
  tu_macros tu !! "CONTROL_PINS" = None →
  include_config_h tu = Some tu' →
  (∀ d ts, d ∈ config_h → literal_of (d_value d) = Some ts →
           evaluate tu' (d_name d) = Some ts) ∧
  tu_objects tu' !! "CONTROL_PINS" = Some CONTROL_PINS.
Proof.
  intros Hg Hm H. pose proof (include_macros _ _ Hg H) as Hmac. split.
  - intros d ts Hd Hlit. unfold config_h in Hd.
    repeat (apply elem_of_cons in Hd as [-> | Hd]);
      try (by apply elem_of_nil in Hd);
      cbn [d_value d_name literal_of] in Hlit |- *;
      try discriminate Hlit; injection Hlit as <-;
      first
        [ apply evaluate_literal;
          [rewrite Hmac; apply header_macro; by vm_compute | done]
        | apply (evaluate_pasted tu' _ "MQTT_TOPIC_PREFIX" MQTT_TOPIC_PREFIX);
          [done
          | rewrite Hmac; apply header_macro; by vm_compute
          | rewrite Hmac; apply header_macro; by vm_compute] ].
  - unfold include_config_h in H. rewrite Hg in H.
    rewrite config_h_body_spec in H
      by (cbn [define tu_macros]; by rewrite lookup_insert_ne).
    cbn [define tu_objects] in H.
    destruct (tu_objects tu !! "CONTROL_PINS"); [done | ]. injection H as <-.
    cbn [tu_objects]. by rewrite lookup_insert_eq.
Qed.

Lemma included_names_are_the_constants_witness :
  evaluate included_unit "MQTT_TOPIC_TELEMETRY" = Some [TString MQTT_TOPIC_TELEMETRY] ∧
  tu_objects included_unit !! "CONTROL_PINS" = Some CONTROL_PINS.
Proof.
  destruct (included_names_are_the_constants empty_unit included_unit)
    as [Hnames Harray]; [reflexivity | reflexivity | vm_compute; reflexivity | ].
  split; [ | exact Harray].
  apply (Hnames (mk_declaration "MQTT_TOPIC_TELEMETRY" MacroLiteral
                   (VText MQTT_TOPIC_TELEMETRY))); [ | reflexivity].
  unfold config_h. rewrite !elem_of_cons. do 12 right. by left.
Defined.

(** X9: the topics are replaced where they are used, so they follow the
    prefix: if the prefix macro is redefined to any text after the header
    has been included, each of the three topic macros stands for that text
    followed by its own suffix. *)
Theorem topics_follow_prefix (tu tu' : translation_unit) (p : string) :
  tu_macros tu !! "CONFIG_H" = None →
  include_config_h tu = Some tu' →
  evaluate (define "MQTT_TOPIC_PREFIX" [TString p] tu') "MQTT_TOPIC_CONTROL"
    = Some [TString (topic_control p)] ∧
  evaluate (define "MQTT_TOPIC_PREFIX" [TString p] tu') "MQTT_TOPIC_STATUS"
    = Some [TString (topic_status p)] ∧
  evaluate (define "MQTT_TOPIC_PREFIX" [TString p] tu') "MQTT_TOPIC_TELEMETRY"
    = Some [TString (topic_telemetry p)].
Proof.
  intros Hg H. pose proof (include_macros _ _ Hg H) as Hmac.
  split_and!;
    (apply (evaluate_pasted _ _ "MQTT_TOPIC_PREFIX" p);
     [ done
     | cbn [define tu_macros]; rewrite lookup_insert_ne by done;
       rewrite Hmac; apply header_macro; by vm_compute
     | cbn [define tu_macros]; by rewrite lookup_insert_eq ]).
Qed.

Lemma topics_follow_prefix_witness :
  evaluate (define "MQTT_TOPIC_PREFIX" [TString "home/attic"] included_unit)
           "MQTT_TOPIC_CONTROL"
    = Some [TString "home/attic/control"].
Proof.
  assert (include_config_h empty_unit = Some included_unit) as H
    by (vm_compute; reflexivity).
  exact (proj1 (topics_follow_prefix empty_unit included_unit "home/attic" eq_refl H)).
Defined.

(** X10: [DHT_SENSOR_TYPE] stands for whatever [DHT22] stands for where it
    is used.  When [DHT22] is a macro with a literal body, the sensor type
    is that literal whether [DHT22] was defined before the header was
    included or after. *)
Theorem sensor_type_in_either_order (tu tu1 tu2 : translation_unit) (t : token) :
  is_literal t = true →
  tu_macros tu !! "CONFIG_H" = None →
  include_config_h (define "DHT22" [t] tu) = Some tu1 →
  include_config_h tu = Some tu2 →
  evaluate tu1 "DHT_SENSOR_TYPE" = Some [t] ∧
  evaluate (define "DHT22" [t] tu2) "DHT_SENSOR_TYPE" = Some [t].
Proof.
  intros Hl Hg H1 H2.
  assert (tu_macros (define "DHT22" [t] tu) !! "CONFIG_H" = None) as Hg1
    by (cbn [define tu_macros]; by rewrite lookup_insert_ne).
  pose proof (include_macros _ _ Hg1 H1) as Hm1.
  pose proof (include_macros _ _ Hg H2) as Hm2.
  split; apply (evaluate_renamed _ _ "DHT22"); try done.
  - rewrite Hm1. apply header_macro. by vm_compute.
  - rewrite Hm1, header_not_macro by (by vm_compute).
    cbn [define tu_macros]. rewrite lookup_insert_ne by done.
    by rewrite lookup_insert_eq.
  - cbn [define tu_macros]. rewrite lookup_insert_ne by done.
    rewrite Hm2. apply header_macro. by vm_compute.
  - cbn [define tu_macros]. by rewrite lookup_insert_eq.
Qed.

Lemma sensor_type_in_either_order_witness :
  evaluate (define "DHT22" [TInt 22] included_unit) "DHT_SENSOR_TYPE" = Some [TInt 22].
Proof.
  assert (include_config_h (define "DHT22" [TInt 22] empty_unit)
          = Some (default empty_unit
                    (include_config_h (define "DHT22" [TInt 22] empty_unit)))) as H1
    by (vm_compute; reflexivity).
  assert (include_config_h empty_unit = Some included_unit) as H2
    by (vm_compute; reflexivity).
  exact (proj2 (sensor_type_in_either_order empty_unit _ included_unit (TInt 22)
                  eq_refl eq_refl H1 H2)).
Defined.
